(** * A boundary-tag allocator over a brk-style arena

    Shallow embedding of [memlib.cpp] (the arena provider) and of
    [allocator.cpp] (the allocator built on it), followed by the
    properties of both.

    Target model: LP64, little-endian.  [int] and [unsigned int] are 32
    bits wide, [size_t] and pointers 64 bits.  An address is a [Z]; the
    arena bytes are a finite map from addresses to byte values.  The
    diagnostic line that [mem_sbrk] prints on [stderr] is not part of the
    model. *)

From Stdlib Require Import ZArith Lia List Bool.
From stdpp Require Import base numbers option gmap.

Open Scope Z_scope.

(** ** Machine integers *)

Module Mach.

Definition wrap32 (x : Z) : Z := x mod 2 ^ 32.
Definition wrap64 (x : Z) : Z := x mod 2 ^ 64.

Definition INT_MIN : Z := - 2 ^ 31.
Definition INT_MAX : Z := 2 ^ 31 - 1.

(** [sizeof(void * )] *)
Definition sizeof_ptr : Z := 8.

Definition NULL : Z := 0.

(** Pointer plus a signed offset, as the 64-bit addition the hardware does. *)
Definition ptr_add (p off : Z) : Z := wrap64 (p + off).

(** The value [(void * )-1]. *)
Definition MINUS_ONE_PTR : Z := wrap64 (-1).

Definition in_int (x : Z) : Prop := INT_MIN <= x <= INT_MAX.

End Mach.
Export Mach.

(** ** Program state

    The three private globals of [memlib.cpp], the arena contents, and the
    two statics of [allocator.cpp]. *)

Record state : Type := State {
  mem_heap     : Z;          (* first byte of the arena *)
  mem_brk      : Z;          (* last byte of the heap plus 1 *)
  mem_max_addr : Z;          (* max legal heap address plus 1 *)
  mem          : gmap Z Z;   (* byte at each written address *)
  heap_listp   : Z;          (* payload of the prologue block *)
  free_listp   : Z           (* head of the explicit free list *)
}.

Definition set_mem_brk (b : Z) (s : state) : state :=
  State (mem_heap s) b (mem_max_addr s) (mem s) (heap_listp s) (free_listp s).

Definition set_mem (m : gmap Z Z) (s : state) : state :=
  State (mem_heap s) (mem_brk s) (mem_max_addr s) m (heap_listp s) (free_listp s).

Definition set_heap_listp (p : Z) (s : state) : state :=
  State (mem_heap s) (mem_brk s) (mem_max_addr s) (mem s) p (free_listp s).

Definition set_free_listp (p : Z) (s : state) : state :=
  State (mem_heap s) (mem_brk s) (mem_max_addr s) (mem s) (heap_listp s) p.

(** State before [mem_init]: all statics are zero-initialised. *)
Definition boot : state := State 0 0 0 ∅ NULL NULL.

(** ** A state monad for the imperative code *)

Definition M (A : Type) : Type := state -> A * state.

Definition ret {A} (a : A) : M A := fun s => (a, s).
Definition bind {A B} (c : M A) (k : A -> M B) : M B :=
  fun s => let (a, s') := c s in k a s'.
Definition gets {A} (f : state -> A) : M A := fun s => (f s, s).
Definition modify (f : state -> state) : M unit := fun s => (tt, f s).

Declare Scope prog_scope.
Delimit Scope prog_scope with prog.
Notation "'let*' x ':=' c 'in' k" := (bind c (fun x => k))
  (at level 10, x name, c at level 100, k at level 200) : prog_scope.
Notation "c1 '>>' c2" := (bind c1 (fun _ => c2))
  (at level 100, c2 at level 200, right associativity) : prog_scope.

Definition result {A} (c : M A) (s : state) : A := fst (c s).
Definition after {A} (c : M A) (s : state) : state := snd (c s).

(** ** memlib.cpp *)

Module Memlib.

Definition MAX_HEAP : Z := 8 * 1024 * 1024.

(** [mem_init]: [base] is what the system [malloc(MAX_HEAP)] returned;
    on a null result the program exits.  The bytes of the new region are
    indeterminate: the byte map is left as it stands, as one content the
    region may have, and nothing below is stated about it. *)
Definition mem_init (base : Z) (s : state) : option state :=
  if base =? NULL then None
  else Some (State base base (ptr_add base MAX_HEAP)
                   (mem s) (heap_listp s) (free_listp s)).

Definition mem_sbrk (incr : Z) : M Z := fun s =>
  let old_brk := mem_brk s in
  if (incr <? 0) || (ptr_add (mem_brk s) incr >? mem_max_addr s)
  then (MINUS_ONE_PTR, s)
  else (old_brk, set_mem_brk (ptr_add (mem_brk s) incr) s).

Definition mem_heap_lo (s : state) : Z := mem_heap s.

Definition mem_heap_hi (s : state) : Z := ptr_add (mem_brk s) (-1).

Definition mem_heapsize (s : state) : Z := wrap64 (mem_brk s - mem_heap s).

(** The arena as [mem_init] leaves it and [mem_sbrk] keeps it: a region of
    [MAX_HEAP] bytes that the system allocator placed in the address
    space, with the break inside it.  The last conjunct says that the
    region does not sit in the topmost 2 GiB of the address space, so that
    [mem_brk + incr] does not wrap for any [int]. *)
Definition arena_ok (s : state) : Prop :=
  0 < mem_heap s /\
  mem_heap s <= mem_brk s <= mem_max_addr s /\
  mem_max_addr s = mem_heap s + MAX_HEAP /\
  mem_max_addr s + INT_MAX < 2 ^ 64.

(** An address of a byte of the arena. *)
Definition arena_addr (s : state) (a : Z) : Prop :=
  mem_heap s <= a < mem_max_addr s.

(** The request [incr] keeps the heap within the cap. *)
Definition within_cap (s : state) (incr : Z) : Prop :=
  mem_heapsize s + incr <= MAX_HEAP.

(** [mem_deinit]: the region goes back to the system; the three globals
    keep the values they had. *)
Definition mem_deinit (s : state) : state := s.

End Memlib.
Export Memlib.

(** ** allocator.cpp: constants and macros *)

Module Alloc.

Definition WSIZE : Z := 4.
Definition DSIZE : Z := 8.
Definition CHUNKSIZE : Z := Z.shiftl 1 12.

(** [DSIZE + 2 * sizeof(void * )], 24 on a 64-bit target. *)
Definition MIN_BLOCK_SIZE : Z := DSIZE + 2 * sizeof_ptr.

(** [PACK(size, alloc)]: [size] is a [size_t]. *)
Definition PACK (size alloc : Z) : Z := Z.lor size alloc.

(** Byte access; a byte never written reads as 0. *)
Definition load_byte (m : gmap Z Z) (a : Z) : Z := default 0 (m !! a) mod 256.
Definition store_byte (a v : Z) (m : gmap Z Z) : gmap Z Z := <[a := v mod 256]> m.

(** Little-endian loads and stores of [n] bytes. *)
Fixpoint load_le (n : nat) (m : gmap Z Z) (a : Z) : Z :=
  match n with
  | O => 0
  | S k => load_byte m a + 256 * load_le k m (a + 1)
  end.

Fixpoint store_le (n : nat) (a v : Z) (m : gmap Z Z) : gmap Z Z :=
  match n with
  | O => m
  | S k => store_le k (a + 1) (v / 256) (store_byte a v m)
  end.

(** [GET(p)] and [PUT(p, val)]: a 4-byte [unsigned int] at [p]. *)
Definition GET (s : state) (p : Z) : Z := load_le 4 (mem s) p.
Definition PUT (p val : Z) : M unit :=
  modify (fun s => set_mem (store_le 4 p (wrap32 val) (mem s)) s).

(** [~0x7] is the [int] -8; against an [unsigned int] it is 0xFFFFFFF8. *)
Definition GET_SIZE (s : state) (p : Z) : Z := Z.land (GET s p) (wrap32 (Z.lnot 7)).
Definition GET_ALLOC (s : state) (p : Z) : Z := Z.land (GET s p) 1.

Definition HDRP (bp : Z) : Z := ptr_add bp (- WSIZE).
Definition FTRP (s : state) (bp : Z) : Z :=
  ptr_add (ptr_add bp (GET_SIZE s (HDRP bp))) (- DSIZE).

Definition NEXT_BLKP (s : state) (bp : Z) : Z :=
  ptr_add bp (GET_SIZE s (HDRP bp)).
Definition PREV_BLKP (s : state) (bp : Z) : Z :=
  ptr_add bp (- GET_SIZE s (ptr_add bp (- DSIZE))).

(** The free-list links: two pointers at the start of the payload. *)
Definition GET_NEXT_FREE (s : state) (bp : Z) : Z := load_le 8 (mem s) bp.
Definition GET_PREV_FREE (s : state) (bp : Z) : Z :=
  load_le 8 (mem s) (ptr_add bp sizeof_ptr).
Definition SET_NEXT_FREE (bp val : Z) : M unit :=
  modify (fun s => set_mem (store_le 8 bp val (mem s)) s).
Definition SET_PREV_FREE (bp val : Z) : M unit :=
  modify (fun s => set_mem (store_le 8 (ptr_add bp sizeof_ptr) val (mem s)) s).

(** [memcpy(dst, src, n)] for regions that do not overlap: every byte is
    read from the memory as it was before the call. *)
Definition memcpy (dst src n : Z) : M unit :=
  modify (fun s =>
    set_mem (fold_left
               (fun m i => store_byte (ptr_add dst i) (load_byte (mem s) (ptr_add src i)) m)
               (seqZ 0 n) (mem s)) s).

(** ** allocator.cpp: the functions *)

Open Scope prog_scope.

Definition mm_init : M Z :=
  ret (-1).

Definition mm_malloc (size : Z) : M Z :=
  ret NULL.

Definition mm_free (ptr : Z) : M unit :=
  ret tt.

(** The last five lines of [mm_realloc], entered with a non-null
    [newptr]: copy the payload, free the old block, return the new one. *)
Definition realloc_copy (ptr size newptr : Z) : M Z :=
  let* hsize := gets (fun s => GET_SIZE s (HDRP ptr)) in
  let copy_size := wrap64 (hsize - DSIZE) in
  let copy_size := if size <? copy_size then size else copy_size in
  memcpy newptr ptr copy_size >>
  mm_free ptr >>
  ret newptr.

Definition mm_realloc (ptr size : Z) : M Z :=
  if ptr =? NULL then mm_malloc size
  else if size =? 0 then (mm_free ptr >> ret NULL)
  else
    let* newptr := mm_malloc size in
    if newptr =? NULL then ret NULL
    else realloc_copy ptr size newptr.

Definition extend_heap (words : Z) : M Z :=
  ret NULL.

Definition coalesce (bp : Z) : M Z :=
  ret bp.

Definition find_fit (asize : Z) : M Z :=
  ret NULL.

Definition place (bp asize : Z) : M unit :=
  ret tt.

Definition add_to_free_list (bp : Z) : M unit :=
  ret tt.

Definition remove_from_free_list (bp : Z) : M unit :=
  ret tt.

Definition mm_check : M Z :=
  ret 0.

Close Scope prog_scope.

End Alloc.
Export Alloc.

(** * The heap as the allocator's documentation describes it *)

Module Doc.

Open Scope prog_scope.

(** The free list: the walk from a block along [GET_NEXT_FREE] up to the
    null link (at most [fuel] members). *)
Fixpoint free_list_from (fuel : nat) (s : state) (bp : Z) : list Z :=
  match fuel with
  | O => []
  | S k => if bp =? NULL then []
           else bp :: free_list_from k s (GET_NEXT_FREE s bp)
  end.

Definition free_list (fuel : nat) (s : state) : list Z :=
  free_list_from fuel s (free_listp s).

(** The search that the comment above [find_fit] describes: the first
    member of the free list whose header reports a size of at least
    [asize], or null. *)
Definition first_fit (fuel : nat) (s : state) (asize : Z) : Z :=
  match find (fun bp => asize <=? GET_SIZE s (HDRP bp)) (free_list fuel s) with
  | Some bp => bp
  | None => NULL
  end.

(** The blocks of the heap: the walk from a block along [NEXT_BLKP] up to
    the zero-size epilogue. *)
Fixpoint blocks_from (fuel : nat) (s : state) (bp : Z) : list Z :=
  match fuel with
  | O => []
  | S k => if GET_SIZE s (HDRP bp) =? 0 then []
           else bp :: blocks_from k s (NEXT_BLKP s bp)
  end.

Definition heap_blocks (fuel : nat) (s : state) : list Z :=
  blocks_from fuel s (heap_listp s).

(** Where the walk stops: the payload address of the epilogue. *)
Fixpoint walk_end (fuel : nat) (s : state) (bp : Z) : Z :=
  match fuel with
  | O => bp
  | S k => if GET_SIZE s (HDRP bp) =? 0 then bp
           else walk_end k s (NEXT_BLKP s bp)
  end.

Definition is_free (s : state) (bp : Z) : bool := GET_ALLOC s (HDRP bp) =? 0.

(** Header and footer of the block agree on size and allocated bit. *)
Definition tags_agree (s : state) (bp : Z) : bool :=
  GET s (HDRP bp) =? GET s (FTRP s bp).

Definition count_of (x : Z) (l : list Z) : nat :=
  length (filter (fun y => Z.eqb x y) l).

(** The checks that the comment above [mm_check] lists.  Each line is one
    of them, over the heap walk [bl] and the free-list walk [fl]. *)
Definition heap_consistent (fuel : nat) (s : state) : bool :=
  let bl := heap_blocks fuel s in
  let fl := free_list fuel s in
  (* every block in the free list is marked free *)
  forallb (is_free s) fl
  (* no two adjacent free blocks *)
  && forallb (fun bp => negb (is_free s bp && is_free s (NEXT_BLKP s bp))) bl
  (* every free block of the heap is in the free list, once *)
  && forallb (fun bp => negb (is_free s bp) || Nat.eqb (count_of bp fl) 1) bl
  (* the list is doubly linked consistently *)
  && ((free_listp s =? NULL) || (GET_PREV_FREE s (free_listp s) =? NULL))
  && forallb (fun bp => (GET_NEXT_FREE s bp =? NULL)
                        || (GET_PREV_FREE s (GET_NEXT_FREE s bp) =? bp)) fl
  (* no block extends outside the heap *)
  && forallb (fun bp => (mem_heap_lo s <=? HDRP bp)
                        && (FTRP s bp + WSIZE - 1 <=? mem_heap_hi s)) bl
  (* header and footer agree *)
  && forallb (tags_agree s) bl
  (* sizes and payloads are multiples of 8 *)
  && forallb (fun bp => (GET_SIZE s (HDRP bp) mod 8 =? 0) && (bp mod 8 =? 0)) bl
  (* the walk stops at an epilogue that is the last word of the heap *)
  && (GET s (HDRP (walk_end fuel s (heap_listp s))) =? PACK 0 1)
  && (HDRP (walk_end fuel s (heap_listp s)) + WSIZE - 1 =? mem_heap_hi s).

(** What [mm_free] is documented to do to the two tags of a block. *)
Definition freed_tags (s s' : state) (ptr : Z) : Prop :=
  let size := GET_SIZE s (HDRP ptr) in
  GET s' (HDRP ptr) = PACK size 0 /\ GET s' (FTRP s ptr) = PACK size 0.

(** The bytes [a, a + n) of the arena. *)
Definition bytes_at (s : state) (a n : Z) : list Z :=
  map (fun i => load_byte (mem s) (ptr_add a i)) (seqZ 0 n).

(** *** Laying out a heap by hand *)

(** A client storing the bytes [bs] through the pointer [a]. *)
Fixpoint write_bytes (a : Z) (bs : list Z) : M unit :=
  match bs with
  | [] => ret tt
  | b :: rest =>
      modify (fun s => set_mem (store_byte a b (mem s)) s) >>
      write_bytes (ptr_add a 1) rest
  end.

Fixpoint put_blocks (bp : Z) (bs : list (Z * Z)) : M Z :=
  match bs with
  | [] => ret bp
  | (size, alloc) :: rest =>
      PUT (HDRP bp) (PACK size alloc) >>
      (let* ft := gets (fun s => FTRP s bp) in PUT ft (PACK size alloc)) >>
      let* nx := gets (fun s => NEXT_BLKP s bp) in
      put_blocks nx rest
  end.

(** Pad, prologue, the blocks [bs] given as (size, allocated bit), and the
    epilogue, on [4 * WSIZE] bytes plus the block sizes taken from the
    arena. *)
Definition lay_out (bs : list (Z * Z)) : M unit :=
  let* p := mem_sbrk (4 * WSIZE + fold_right Z.add 0 (map fst bs)) in
  PUT p 0 >>
  PUT (p + WSIZE) (PACK DSIZE 1) >>
  PUT (p + 2 * WSIZE) (PACK DSIZE 1) >>
  modify (set_heap_listp (p + 2 * WSIZE)) >>
  modify (set_free_listp NULL) >>
  let* e := put_blocks (p + 4 * WSIZE) bs in
  PUT (HDRP e) (PACK 0 1).

(** Insertion at the head of the free list, as the comment above
    [add_to_free_list] gives it. *)
Definition link_at_head (bp : Z) : M unit :=
  let* head := gets free_listp in
  SET_NEXT_FREE bp head >>
  SET_PREV_FREE bp NULL >>
  (if head =? NULL then ret tt else SET_PREV_FREE head bp) >>
  modify (set_free_listp bp).

Close Scope prog_scope.

End Doc.
Export Doc.

Module Heaps.

Open Scope prog_scope.

(** A fresh arena: what [mem_init] yields when the system allocator
    places the region at address 0x10000. *)
Definition fresh : state :=
  State 65536 65536 (65536 + MAX_HEAP) ∅ NULL NULL.

(** The heap that [mm_init] is documented to leave: one free block of
    [CHUNKSIZE] bytes between prologue and epilogue, on the free list. *)
Definition one_free : state :=
  after (lay_out [(CHUNKSIZE, 0)] >> link_at_head (65536 + 16)) fresh.

(** An allocated block of 24 bytes at payload 0x10010 whose 16 payload
    bytes hold 1..16, followed by a free block that is on the free list. *)
Definition used_then_free : state :=
  after (lay_out [(24, 1); (CHUNKSIZE - 24, 0)] >>
         link_at_head (65536 + 16 + 24) >>
         write_bytes (65536 + 16) (seqZ 1 16)) fresh.

(** As [used_then_free], with the footer of the allocated block
    overwritten by another size. *)
Definition torn_footer : state :=
  after (PUT (65536 + 16 + 16) (PACK 16 0)) used_then_free.

(** As [one_free], with the free block missing from the free list. *)
Definition lost_block : state :=
  set_free_listp NULL one_free.

Close Scope prog_scope.

End Heaps.
Export Heaps.

(** * Clients of the two interfaces *)

Module Client.

Open Scope prog_scope.

(** A client that calls [mem_sbrk] with each increment of [l] in turn. *)
Fixpoint sbrk_calls (l : list Z) (s : state) : state :=
  match l with
  | [] => s
  | incr :: rest => sbrk_calls rest (after (mem_sbrk incr) s)
  end.

(** The public entry points of [allocator.h] and what a call hands back. *)
Inductive call : Type :=
  | Init
  | Malloc (size : Z)
  | Free (ptr : Z)
  | Realloc (ptr size : Z)
  | Check.

Inductive outcome : Type :=
  | Code (c : Z)       (* an [int] *)
  | Ptr (p : Z)        (* a [void *] *)
  | Done.              (* [void] *)

Definition run_call (c : call) : M outcome :=
  match c with
  | Init => let* r := mm_init in ret (Code r)
  | Malloc size => let* p := mm_malloc size in ret (Ptr p)
  | Free ptr => mm_free ptr >> ret Done
  | Realloc ptr size => let* p := mm_realloc ptr size in ret (Ptr p)
  | Check => let* r := mm_check in ret (Code r)
  end.

Fixpoint run_calls (l : list call) : M (list outcome) :=
  match l with
  | [] => ret []
  | c :: rest =>
      let* o := run_call c in
      let* os := run_calls rest in
      ret (o :: os)
  end.

(** What each entry point answers. *)
Definition answer (c : call) : outcome :=
  match c with
  | Init => Code (-1)
  | Malloc _ => Ptr NULL
  | Free _ => Done
  | Realloc _ _ => Ptr NULL
  | Check => Code 0
  end.

(** *** The checkpoint test driver

    Exit codes only; what the driver prints is left out.  [None] stands
    for the [exit(1)] of [mem_init].  A registered test is its body with
    the [passed] field of its result. *)

Definition is_aligned (ptr : Z) : bool := ptr mod 8 =? 0.

(** [base] is what the system allocator returns to this [mem_init]. *)
Definition reset_allocator (base : Z) (s : state) : option (bool * state) :=
  match mem_init base (mem_deinit s) with
  | None => None
  | Some s1 => let (r, s2) := mm_init s1 in Some (r =? 0, s2)
  end.

(** Test 5 of the driver: it passes when [mm_malloc(0)] is null. *)
Definition test_zero_size : M bool :=
  let* ptr := mm_malloc 0 in
  ret (ptr =? NULL).

(** [main] with one argument; [n] is the [int] that [std::stoi] made of
    it.  An argument that is no number, or a number outside [int], ends
    the program in [std::stoi] before this point and is not covered. *)
Definition main_single (g_tests : list (M bool)) (n base : Z) (s : state) : Z :=
  if (n <? 1) || (n >? Z.of_nat (length g_tests)) then 2
  else
    match mem_init base s with
    | None => 1
    | Some s1 =>
        let (r, s2) := mm_init s1 in
        if negb (r =? 0) then 1
        else
          match nth_error g_tests (Z.to_nat (n - 1)) with
          | Some fn => let (passed, _) := fn s2 in if passed then 0 else 1
          | None => 1
          end
    end.

(** The loop of the full-suite mode from test [i] on; [base_of i] is what
    the system allocator returns to the [mem_init] before test [i]. *)
Fixpoint suite_loop (base_of : nat -> Z) (i : nat) (tests : list (M bool))
    (passed : Z) (s : state) : option Z :=
  match tests with
  | [] => Some passed
  | t :: rest =>
      match reset_allocator (base_of i) s with
      | None => None
      | Some (ok, s1) =>
          if negb ok then suite_loop base_of (S i) rest passed s1
          else
            let (p, s2) := t s1 in
            suite_loop base_of (S i) rest (if p then passed + 1 else passed) s2
      end
  end.

(** [main] without arguments. *)
Definition main_suite (base_of : nat -> Z) (g_tests : list (M bool))
    (s : state) : Z :=
  match suite_loop base_of 0 g_tests 0 s with
  | None => 1
  | Some passed => if passed =? Z.of_nat (length g_tests) then 0 else 1
  end.

Close Scope prog_scope.

End Client.
Export Client.

(** * Machine arithmetic *)

Lemma wrap64_small x : 0 <= x < 2 ^ 64 -> wrap64 x = x.
Proof. intros H. unfold wrap64. now apply Z.mod_small. Qed.

Lemma MINUS_ONE_PTR_val : MINUS_ONE_PTR = 2 ^ 64 - 1.
Proof. reflexivity. Qed.

(** * Properties of the arena provider *)

Lemma mem_init_fresh : mem_init 65536 boot = Some fresh.
Proof. reflexivity. Qed.

Lemma fresh_ok : arena_ok fresh.
Proof. unfold arena_ok, fresh, MAX_HEAP, INT_MAX; simpl. lia. Defined.

Lemma in_int_16 : in_int 16.
Proof. unfold in_int, INT_MIN, INT_MAX. lia. Defined.

(** [mem_init] establishes [arena_ok] wherever the region does not reach
    into the topmost 2 GiB of the address space. *)
Lemma mem_init_ok base s s' :
  0 < base -> base + MAX_HEAP + INT_MAX < 2 ^ 64 ->
  mem_init base s = Some s' -> arena_ok s'.
Proof.
  intros Hpos Htop. unfold mem_init, NULL.
  destruct (Z.eqb_spec base 0) as [->|_]; [lia|].
  intros [= <-]. unfold arena_ok, ptr_add; simpl.
  rewrite wrap64_small by (unfold MAX_HEAP, INT_MAX in *; lia).
  unfold MAX_HEAP, INT_MAX in *. lia.
Qed.

Section Sbrk.

Variable s : state.
Variable incr : Z.
Hypothesis Hok : arena_ok s.
Hypothesis Hincr : in_int incr.

Lemma heapsize_exact : mem_heapsize s = mem_brk s - mem_heap s.
Proof using Hok.
  destruct Hok as (Hpos & Hbrk & Hmax & Htop).
  unfold mem_heapsize. apply wrap64_small.
  unfold MAX_HEAP, INT_MAX in *. lia.
Qed.

Lemma brk_plus_exact : 0 <= incr -> ptr_add (mem_brk s) incr = mem_brk s + incr.
Proof using Hok Hincr.
  intros Hnn. destruct Hok as (Hpos & Hbrk & Hmax & Htop).
  unfold ptr_add. apply wrap64_small.
  unfold in_int, INT_MAX in *. lia.
Qed.

Lemma within_cap_brk : within_cap s incr <-> mem_brk s + incr <= mem_max_addr s.
Proof using Hok.
  unfold within_cap. rewrite heapsize_exact.
  destruct Hok as (_ & _ & Hmax & _). lia.
Qed.

Lemma mem_sbrk_success :
  0 <= incr -> within_cap s incr ->
  mem_sbrk incr s = (mem_brk s, set_mem_brk (mem_brk s + incr) s).
Proof using Hok Hincr.
  intros Hnn Hcap. apply within_cap_brk in Hcap.
  unfold mem_sbrk. rewrite (brk_plus_exact Hnn).
  destruct (Z.ltb_spec incr 0) as [?|_]; [lia|].
  rewrite Z.gtb_ltb.
  destruct (Z.ltb_spec (mem_max_addr s) (mem_brk s + incr)) as [?|_]; [lia|].
  reflexivity.
Qed.

Lemma mem_sbrk_failure :
  incr < 0 \/ ~ within_cap s incr ->
  mem_sbrk incr s = (MINUS_ONE_PTR, s).
Proof using Hok Hincr.
  intros Hbad. unfold mem_sbrk.
  destruct (Z.ltb_spec incr 0) as [?|Hnn]; [reflexivity|].
  destruct Hbad as [?|Hcap]; [lia|].
  rewrite within_cap_brk in Hcap.
  rewrite (brk_plus_exact Hnn), Z.gtb_ltb.
  destruct (Z.ltb_spec (mem_max_addr s) (mem_brk s + incr)) as [_|?]; [|lia].
  reflexivity.
Qed.

Lemma brk_below_sentinel : mem_brk s < MINUS_ONE_PTR.
Proof using Hok.
  destruct Hok as (_ & Hbrk & _ & Htop).
  rewrite MINUS_ONE_PTR_val. unfold INT_MAX in Htop. lia.
Qed.

Lemma sentinel_outside_arena : ~ arena_addr s MINUS_ONE_PTR.
Proof using Hok.
  unfold arena_addr. destruct Hok as (_ & _ & _ & Htop).
  rewrite MINUS_ONE_PTR_val. unfold INT_MAX in Htop. lia.
Qed.

(** A successful call keeps the arena well formed. *)
Lemma mem_sbrk_keeps_ok : arena_ok (after (mem_sbrk incr) s).
Proof using Hok Hincr.
  destruct (Z_lt_dec incr 0) as [Hneg|Hnn].
  - unfold after. rewrite mem_sbrk_failure by auto. exact Hok.
  - destruct (Z_le_dec (mem_heapsize s + incr) MAX_HEAP) as [Hcap|Hcap].
    + unfold after. rewrite mem_sbrk_success by (unfold within_cap; lia).
      apply within_cap_brk in Hcap.
      destruct Hok as (Hpos & Hbrk & Hmax & Htop).
      unfold arena_ok; simpl. lia.
    + unfold after. rewrite mem_sbrk_failure by (unfold within_cap; auto).
      exact Hok.
Qed.

(** C9: [mem_sbrk incr] advances the break by [incr] bytes and returns the
    old break exactly when [incr >= 0] and the grown heap stays within the
    8 MiB cap; for a negative [incr], and for an [incr] that would push
    the break past the cap, it returns the error sentinel. *)
Theorem mem_sbrk_extends_exactly_within_cap :
  (0 <= incr /\ within_cap s incr ->
     mem_sbrk incr s = (mem_brk s, set_mem_brk (mem_brk s + incr) s)) /\
  (incr < 0 \/ ~ within_cap s incr ->
     mem_sbrk incr s = (MINUS_ONE_PTR, s)) /\
  (result (mem_sbrk incr) s = mem_brk s /\
   mem_brk (after (mem_sbrk incr) s) = mem_brk s + incr
   <-> 0 <= incr /\ within_cap s incr).
Proof using Hok Hincr.
  split; [|split].
  - intros [Hnn Hcap]. now apply mem_sbrk_success.
  - apply mem_sbrk_failure.
  - split.
    + intros [Hres _].
      destruct (Z_lt_dec incr 0) as [Hneg|Hnn].
      * unfold result in Hres. rewrite mem_sbrk_failure in Hres by auto.
        simpl in Hres. pose proof brk_below_sentinel. lia.
      * split; [lia|].
        destruct (Z_le_dec (mem_heapsize s + incr) MAX_HEAP) as [Hcap|Hcap];
          [exact Hcap|].
        unfold result in Hres. rewrite mem_sbrk_failure in Hres by auto.
        simpl in Hres. pose proof brk_below_sentinel. lia.
    + intros [Hnn Hcap]. unfold result, after.
      rewrite mem_sbrk_success by assumption. split; reflexivity.
Qed.

(** C10: when [mem_sbrk incr] fails, the break is left where it was, so
    [mem_heap_hi] and [mem_heapsize] answer as before the call, and the
    value returned is [(void * )-1], which is no address of the arena and
    differs from the break. *)
Theorem mem_sbrk_failure_keeps_break :
  incr < 0 \/ ~ within_cap s incr ->
  result (mem_sbrk incr) s = wrap64 (-1) /\
  mem_brk (after (mem_sbrk incr) s) = mem_brk s /\
  mem_heap_hi (after (mem_sbrk incr) s) = mem_heap_hi s /\
  mem_heapsize (after (mem_sbrk incr) s) = mem_heapsize s /\
  ~ arena_addr s (result (mem_sbrk incr) s) /\
  result (mem_sbrk incr) s <> mem_brk s.
Proof using Hok Hincr.
  intros Hbad. unfold result, after.
  rewrite (mem_sbrk_failure Hbad). simpl.
  repeat split; try reflexivity.
  - apply sentinel_outside_arena.
  - pose proof brk_below_sentinel. lia.
Qed.

End Sbrk.

(** No successful call returns the failure sentinel. *)
Lemma mem_sbrk_success_not_sentinel s incr :
  arena_ok s -> in_int incr -> 0 <= incr -> within_cap s incr ->
  result (mem_sbrk incr) s <> MINUS_ONE_PTR.
Proof.
  intros Hok Hincr Hnn Hcap. unfold result.
  rewrite mem_sbrk_success by assumption. simpl.
  pose proof (brk_below_sentinel s Hok). lia.
Qed.

Lemma mem_sbrk_16_fresh :
  (0 <= 16 /\ within_cap fresh 16) /\
  mem_sbrk 16 fresh = (65536, set_mem_brk (65536 + 16) fresh).
Proof.
  assert (H : 0 <= 16 /\ within_cap fresh 16).
  { split; [lia|]. unfold within_cap. vm_compute. discriminate. }
  split; [exact H|].
  exact (proj1 (mem_sbrk_extends_exactly_within_cap fresh 16 fresh_ok in_int_16) H).
Defined.

Lemma in_int_over_cap : in_int (MAX_HEAP + 1).
Proof. unfold in_int, INT_MIN, INT_MAX, MAX_HEAP. lia. Defined.

Lemma mem_sbrk_over_cap_fresh :
  (MAX_HEAP + 1 < 0 \/ ~ within_cap fresh (MAX_HEAP + 1)) /\
  result (mem_sbrk (MAX_HEAP + 1)) fresh = wrap64 (-1) /\
  mem_brk (after (mem_sbrk (MAX_HEAP + 1)) fresh) = mem_brk fresh.
Proof.
  assert (H : MAX_HEAP + 1 < 0 \/ ~ within_cap fresh (MAX_HEAP + 1)).
  { right. unfold within_cap. vm_compute. intros H. apply H. reflexivity. }
  split; [exact H|].
  pose proof (mem_sbrk_failure_keeps_break fresh (MAX_HEAP + 1)
                fresh_ok in_int_over_cap H) as (H1 & H2 & _).
  split; assumption.
Defined.

(** * Properties of the allocator *)

(** ** What the function bodies do, in every state *)

Lemma mm_init_unfold s : mm_init s = (-1, s).
Proof. reflexivity. Qed.

Lemma mm_malloc_unfold size s : mm_malloc size s = (NULL, s).
Proof. reflexivity. Qed.

Lemma mm_free_unfold ptr s : mm_free ptr s = (tt, s).
Proof. reflexivity. Qed.

Lemma find_fit_unfold asize s : find_fit asize s = (NULL, s).
Proof. reflexivity. Qed.

Lemma extend_heap_unfold words s : extend_heap words s = (NULL, s).
Proof. reflexivity. Qed.

Lemma mm_check_unfold s : mm_check s = (0, s).
Proof. reflexivity. Qed.

(** With a non-null block and a non-zero size, [mm_realloc] asks
    [mm_malloc] for the new block, gets null, and returns null. *)
Lemma mm_realloc_nonnull ptr size s :
  ptr <> NULL -> size <> 0 -> mm_realloc ptr size s = (NULL, s).
Proof.
  intros Hp Hn. unfold mm_realloc.
  destruct (Z.eqb_spec ptr NULL) as [?|_]; [contradiction|].
  destruct (Z.eqb_spec size 0) as [?|_]; [contradiction|].
  reflexivity.
Qed.

(** With a non-null block and size 0, [mm_realloc] calls [mm_free] and
    returns null. *)
Lemma mm_realloc_zero ptr s :
  ptr <> NULL -> mm_realloc ptr 0 s = (NULL, after (mm_free ptr) s).
Proof.
  intros Hp. unfold mm_realloc.
  destruct (Z.eqb_spec ptr NULL) as [?|_]; [contradiction|].
  reflexivity.
Qed.

(** ** The copying tail of [mm_realloc] *)

Lemma load_byte_mod m a : load_byte m a mod 256 = load_byte m a.
Proof. unfold load_byte. apply Z.mod_mod. lia. Qed.

Lemma load_store_byte_eq a v m : load_byte (store_byte a v m) a = v mod 256.
Proof.
  unfold load_byte, store_byte. rewrite lookup_insert_eq. simpl.
  apply Z.mod_mod. lia.
Qed.

Lemma load_store_byte_ne a b v m :
  a <> b -> load_byte (store_byte a v m) b = load_byte m b.
Proof.
  intros Hne. unfold load_byte, store_byte. now rewrite lookup_insert_ne.
Qed.

Section Copy.

Variables dst src : Z.
Variable m0 : gmap Z Z.

Let step (m : gmap Z Z) (i : Z) : gmap Z Z :=
  store_byte (ptr_add dst i) (load_byte m0 (ptr_add src i)) m.

(** After the byte-by-byte copy over the offsets [l], the byte at offset
    [i] of the destination is the byte at offset [i] of the source, as
    long as no other offset of [l] names the same destination address. *)
Lemma copy_reads_source (l : list Z) (m : gmap Z Z) (i : Z) :
  In i l ->
  (forall j, In j l -> ptr_add dst j = ptr_add dst i -> j = i) ->
  load_byte (fold_left step l m) (ptr_add dst i) = load_byte m0 (ptr_add src i).
Proof.
  induction l as [|x l IH] using rev_ind; intros Hin Hinj; [destruct Hin|].
  rewrite fold_left_app. simpl. unfold step at 1.
  destruct (Z.eq_dec x i) as [->|Hxi].
  - rewrite load_store_byte_eq. apply load_byte_mod.
  - rewrite load_store_byte_ne.
    + apply IH.
      * apply in_app_or in Hin. destruct Hin as [?|[?|[]]]; [assumption|congruence].
      * intros j Hj. apply Hinj. apply in_or_app. now left.
    + intros Heq. apply Hxi. apply Hinj; [|exact Heq].
      apply in_or_app. right. now left.
Qed.

End Copy.

Lemma memcpy_copies dst src n s :
  0 <= dst -> dst + n <= 2 ^ 64 ->
  bytes_at (after (memcpy dst src n) s) dst n = bytes_at s src n.
Proof.
  intros Hlo Hhi. unfold bytes_at, after, memcpy, modify. simpl.
  apply map_ext_in. intros i Hi.
  apply copy_reads_source; [exact Hi|].
  intros j Hj Heq.
  apply list_elem_of_In, elem_of_seqZ in Hi.
  apply list_elem_of_In, elem_of_seqZ in Hj.
  unfold ptr_add in Heq.
  rewrite !wrap64_small in Heq by lia. lia.
Qed.

(** Entered with a block [newptr] that does not overlap the old payload,
    the tail of [mm_realloc] returns [newptr] with the first
    [min(size, GET_SIZE(HDRP(ptr)) - DSIZE)] bytes of [ptr] copied to it,
    and calls [mm_free(ptr)] after the copy. *)
Lemma realloc_copy_preserves ptr size newptr s :
  let c := Z.min size (wrap64 (GET_SIZE s (HDRP ptr) - DSIZE)) in
  0 <= newptr -> newptr + c <= 2 ^ 64 ->
  newptr + c <= ptr \/ ptr + c <= newptr ->
  realloc_copy ptr size newptr s
    = (newptr, after (mm_free ptr) (after (memcpy newptr ptr c) s)) /\
  bytes_at (after (realloc_copy ptr size newptr) s) newptr c = bytes_at s ptr c.
Proof.
  intros c Hlo Hhi _.
  assert (Hc : (if size <? wrap64 (GET_SIZE s (HDRP ptr) - DSIZE)
                then size else wrap64 (GET_SIZE s (HDRP ptr) - DSIZE)) = c).
  { unfold c. destruct (Z.ltb_spec size (wrap64 (GET_SIZE s (HDRP ptr) - DSIZE))); lia. }
  assert (Hrun : realloc_copy ptr size newptr s
                 = (newptr, after (mm_free ptr) (after (memcpy newptr ptr c) s))).
  { unfold realloc_copy, bind, gets. rewrite Hc. reflexivity. }
  split; [exact Hrun|].
  unfold after at 1. rewrite Hrun. simpl.
  now apply memcpy_copies.
Qed.

(** Had [mm_malloc] handed out the free block at 0x10028, the tail would
    have copied the 8 bytes and left the old block allocated. *)
Lemma realloc_copy_example :
  result (realloc_copy 65552 8 65576) used_then_free = 65576 /\
  bytes_at (after (realloc_copy 65552 8 65576) used_then_free) 65576 8
    = [1; 2; 3; 4; 5; 6; 7; 8] /\
  GET_ALLOC (after (realloc_copy 65552 8 65576) used_then_free) (HDRP 65552) = 1.
Proof. vm_compute. repeat split. Qed.

(** ** The example heaps *)

Lemma one_free_shape :
  heap_blocks 8 one_free = [65544; 65552] /\
  free_list 8 one_free = [65552] /\
  GET one_free (HDRP 65552) = PACK CHUNKSIZE 0 /\
  mem_heapsize one_free = 4 * WSIZE + CHUNKSIZE /\
  heap_consistent 8 one_free = true.
Proof. vm_compute. repeat split. Qed.

Lemma used_then_free_shape :
  heap_blocks 8 used_then_free = [65544; 65552; 65576] /\
  free_list 8 used_then_free = [65576] /\
  GET used_then_free (HDRP 65552) = PACK 24 1 /\
  GET used_then_free (FTRP used_then_free 65552) = PACK 24 1 /\
  bytes_at used_then_free 65552 16 =
    [1; 2; 3; 4; 5; 6; 7; 8; 9; 10; 11; 12; 13; 14; 15; 16] /\
  heap_consistent 8 used_then_free = true.
Proof. vm_compute. repeat split. Qed.

(** ** The claims *)

(** C1: [mm_init] is to take 16 bytes from the arena, lay out pad,
    prologue and epilogue, call [extend_heap(CHUNKSIZE / WSIZE)], and
    return 0 when both extensions succeed.  On a fresh arena, where both
    extensions would succeed, the function returns -1 and the heap stays
    empty. *)
Theorem mm_init_fails_on_fresh_arena :
  mm_init fresh = (-1, fresh) /\
  mem_heapsize (after mm_init fresh) = 0 /\
  result (mem_sbrk (4 * WSIZE)) fresh <> MINUS_ONE_PTR /\
  result (mem_sbrk CHUNKSIZE) (after (mem_sbrk (4 * WSIZE)) fresh)
    <> MINUS_ONE_PTR.
Proof. vm_compute. repeat split; discriminate. Qed.

(** C2: after [mm_init] on a fresh arena, [mm_malloc(8)] is to return a
    non-null 8-aligned payload.  Here [mm_init] reports failure and
    [mm_malloc(8)] returns null; it returns null as well on the heap that
    [mm_init] is documented to leave, where a free block of 4096 bytes is
    on the free list. *)
Theorem mm_malloc_8_after_init_is_null :
  result mm_init fresh = -1 /\
  bind mm_init (fun _ => mm_malloc 8) fresh = (NULL, fresh) /\
  first_fit 8 one_free (2 * DSIZE) = 65552 /\
  mm_malloc 8 one_free = (NULL, one_free).
Proof. vm_compute. repeat split. Qed.

(** C3: in every state, [mm_malloc(0)] returns null and leaves the state,
    the arena included, as it was. *)
Theorem mm_malloc_zero_is_null (s : state) :
  result (mm_malloc 0) s = NULL /\
  after (mm_malloc 0) s = s /\
  mem (after (mm_malloc 0) s) = mem s /\
  mem_brk (after (mm_malloc 0) s) = mem_brk s.
Proof. repeat split. Qed.

(** C4: [find_fit(asize)] is to return the first block on the walk from
    the free-list head whose size is at least [asize].  With one free
    block of 4096 bytes on the list and [asize = 16], the walk finds that
    block and [find_fit] returns null. *)
Theorem find_fit_misses_fitting_block :
  free_list 8 one_free = [65552] /\
  GET_SIZE one_free (HDRP 65552) = 4096 /\
  first_fit 8 one_free 16 = 65552 /\
  find_fit 16 one_free = (NULL, one_free).
Proof. vm_compute. repeat split. Qed.

(** C5: [mm_free(p)] is to rewrite header and footer of the block to
    [PACK(size, 0)] and call [coalesce(p)].  For the allocated block of 24
    bytes at 0x10010, the call changes nothing: both tags still carry the
    allocated bit and the block is not on the free list. *)
Theorem mm_free_leaves_block_allocated :
  GET used_then_free (HDRP 65552) = PACK 24 1 /\
  after (mm_free 65552) used_then_free = used_then_free /\
  GET (after (mm_free 65552) used_then_free) (HDRP 65552) = PACK 24 1 /\
  GET (after (mm_free 65552) used_then_free) (FTRP used_then_free 65552)
    = PACK 24 1 /\
  ~ freed_tags used_then_free (after (mm_free 65552) used_then_free) 65552 /\
  free_list 8 (after (mm_free 65552) used_then_free) = [65576].
Proof.
  vm_compute. repeat split; try discriminate.
  intros [H _]. discriminate H.
Qed.

(** For the allocated block at 0x10010 and a new size of 8, with a free
    block of 4072 bytes on the free list, [mm_realloc] returns null and
    changes nothing. *)
Lemma mm_realloc_hands_back_nothing :
  first_fit 8 used_then_free (2 * DSIZE) = 65576 /\
  mm_realloc 65552 8 used_then_free = (NULL, used_then_free) /\
  GET_ALLOC used_then_free (HDRP 65552) = 1.
Proof. vm_compute. repeat split. Qed.

(** C7: for every size [n], [mm_realloc(nullptr, n)] is [mm_malloc(n)]:
    the same value returned and the same state left. *)
Theorem mm_realloc_null_is_malloc (n : Z) (s : state) :
  mm_realloc NULL n s = mm_malloc n s.
Proof. reflexivity. Qed.

(** C8: [mm_check] is to return 0 on a consistent heap and nonzero on a
    heap that breaks one of the documented invariants.  It returns 0 on
    the consistent heap [one_free]; it also returns 0 on [torn_footer],
    where header and footer of the block at 0x10010 differ, and on
    [lost_block], where the free block at 0x10010 is not on the free
    list. *)
Theorem mm_check_accepts_corrupt_heaps :
  (heap_consistent 8 one_free = true /\ result mm_check one_free = 0) /\
  (tags_agree torn_footer 65552 = false /\
   heap_consistent 8 torn_footer = false /\
   result mm_check torn_footer = 0) /\
  (is_free lost_block 65552 = true /\
   free_list 8 lost_block = [] /\
   heap_consistent 8 lost_block = false /\
   result mm_check lost_block = 0).
Proof. vm_compute. repeat split. Qed.

(** * Further properties *)

(** ** Bytes and words *)

Lemma load_byte_range m a : 0 <= load_byte m a < 256.
Proof. unfold load_byte. apply Z.mod_pos_bound. lia. Qed.

Lemma load_le_range n m a : 0 <= load_le n m a < 256 ^ Z.of_nat n.
Proof.
  revert a. induction n as [|n IH]; intros a.
  - simpl. lia.
  - rewrite Nat2Z.inj_succ, Z.pow_succ_r by lia.
    cbn [load_le]. pose proof (load_byte_range m a). pose proof (IH (a + 1)). lia.
Qed.

(** Bytes outside the stored range keep their value. *)
Lemma load_byte_store_le_out n a v m b :
  b < a \/ a + Z.of_nat n <= b ->
  load_byte (store_le n a v m) b = load_byte m b.
Proof.
  revert a v m. induction n as [|n IH]; intros a v m Hout; [reflexivity|].
  cbn [store_le]. rewrite IH by lia.
  apply load_store_byte_ne. lia.
Qed.

Lemma load_le_store_le_out k n a b v m :
  b + Z.of_nat k <= a \/ a + Z.of_nat n <= b ->
  load_le k (store_le n a v m) b = load_le k m b.
Proof.
  revert b. induction k as [|k IH]; intros b Hout; [reflexivity|].
  cbn [load_le]. rewrite IH by lia.
  rewrite load_byte_store_le_out by lia. reflexivity.
Qed.

(** The low [k] bytes of an [n]-byte store, read back at its address. *)
Lemma load_le_store_le_prefix k n a v m :
  (k <= n)%nat ->
  load_le k (store_le n a v m) a = v mod 256 ^ Z.of_nat k.
Proof.
  revert n a v m. induction k as [|k IH]; intros n a v m Hkn.
  - simpl. now rewrite Z.mod_1_r.
  - destruct n as [|n]; [lia|].
    cbn [load_le store_le].
    rewrite IH by lia.
    rewrite load_byte_store_le_out by lia.
    rewrite load_store_byte_eq.
    rewrite Nat2Z.inj_succ, Z.pow_succ_r by lia.
    symmetry. apply Z.rem_mul_r; [lia|]. apply Z.pow_pos_nonneg; lia.
Qed.

Lemma GET_range s p : 0 <= GET s p < 2 ^ 32.
Proof. unfold GET. apply (load_le_range 4). Qed.

Lemma GET_SIZE_eq s p : GET_SIZE s p = 8 * (GET s p / 8).
Proof.
  unfold GET_SIZE. pose proof (GET_range s p) as Hr.
  replace (wrap32 (Z.lnot 7)) with (Z.land (Z.lnot 7) (Z.ones 32))
    by (unfold wrap32; now rewrite Z.land_ones by lia).
  rewrite (Z.land_comm (Z.lnot 7)), Z.land_assoc.
  rewrite Z.land_ones, Z.mod_small by lia.
  change 7 with (Z.ones 3).
  rewrite <- Z.ldiff_land, Z.ldiff_ones_r by lia.
  rewrite Z.shiftl_mul_pow2, Z.shiftr_div_pow2 by lia.
  change (2 ^ 3) with 8. lia.
Qed.

Lemma GET_SIZE_range s p : 0 <= GET_SIZE s p < 2 ^ 32.
Proof.
  rewrite GET_SIZE_eq. pose proof (GET_range s p) as Hr.
  pose proof (Z.div_mod (GET s p) 8 ltac:(lia)) as Hdm.
  pose proof (Z.mod_pos_bound (GET s p) 8 ltac:(lia)) as Hm8.
  lia.
Qed.

Lemma GET_ALLOC_eq s p : GET_ALLOC s p = GET s p mod 2.
Proof. unfold GET_ALLOC. change 1 with (Z.ones 1). now rewrite Z.land_ones by lia. Qed.

Lemma mem_after_PUT p val s :
  mem (after (PUT p val) s) = store_le 4 p (wrap32 val) (mem s).
Proof. reflexivity. Qed.

Lemma GET_PUT_same p val s : GET (after (PUT p val) s) p = wrap32 val.
Proof.
  unfold GET. rewrite mem_after_PUT.
  rewrite (load_le_store_le_prefix 4 4) by lia.
  unfold wrap32. change (256 ^ Z.of_nat 4) with (2 ^ 32).
  apply Z.mod_mod. lia.
Qed.

Lemma GET_PUT_other p q val s :
  q + 4 <= p \/ p + 4 <= q -> GET (after (PUT p val) s) q = GET s q.
Proof.
  intros Hd. unfold GET. rewrite mem_after_PUT.
  apply load_le_store_le_out. lia.
Qed.

Lemma PACK_add size alloc :
  size mod 8 = 0 -> alloc = 0 \/ alloc = 1 -> PACK size alloc = size + alloc.
Proof.
  intros H8 Ha. unfold PACK.
  rewrite <- (Z.add_lor_land size alloc).
  destruct Ha as [->| ->].
  - rewrite Z.land_0_r. lia.
  - change 1 with (Z.ones 1). rewrite Z.land_ones by lia.
    change (2 ^ 1) with 2.
    assert (size mod 2 = 0); [|lia].
    rewrite (Z.div_mod size 8) by lia. rewrite H8.
    replace (8 * (size / 8) + 0) with ((4 * (size / 8)) * 2) by lia.
    apply Z.mod_mul. lia.
Qed.

Lemma ptr_add_add a x y : ptr_add (ptr_add a x) y = ptr_add a (x + y).
Proof.
  unfold ptr_add, wrap64. rewrite Zplus_mod_idemp_l. f_equal. lia.
Qed.

Lemma ptr_add_exact a x : 0 <= a + x < 2 ^ 64 -> ptr_add a x = a + x.
Proof. intros H. unfold ptr_add. now apply wrap64_small. Qed.

Lemma ptr_add_0 a : 0 <= a < 2 ^ 64 -> ptr_add a 0 = a.
Proof. intros H. unfold ptr_add. rewrite Z.add_0_r. now apply wrap64_small. Qed.

(** A word stored with [PUT] is read back by [GET], and a word that does
    not overlap the stored one keeps its value. *)
Theorem PUT_then_GET s p q val :
  0 <= val < 2 ^ 32 ->
  q + 4 <= p \/ p + 4 <= q ->
  GET (after (PUT p val) s) p = val /\
  GET (after (PUT p val) s) q = GET s q.
Proof.
  intros Hval Hd. split.
  - rewrite GET_PUT_same. now apply Z.mod_small.
  - now apply GET_PUT_other.
Qed.

Lemma PUT_then_GET_witness :
  (0 <= 25 < 2 ^ 32) /\ (65536 + 4 <= 65548 \/ 65548 + 4 <= 65536) /\
  GET (after (PUT 65548 25) fresh) 65548 = 25 /\
  GET (after (PUT 65548 25) fresh) 65536 = GET fresh 65536.
Proof.
  assert (H1 : 0 <= 25 < 2 ^ 32) by lia.
  assert (H2 : 65536 + 4 <= 65548 \/ 65548 + 4 <= 65536) by (left; lia).
  split; [exact H1|]. split; [exact H2|].
  exact (PUT_then_GET fresh 65548 65536 25 H1 H2).
Defined.

(** Whatever word sits at [p], the size decoded from it is a multiple of 8
    below 2^32 that does not exceed the word, the allocated bit is 0 or 1,
    and the two never add up to more than the word. *)
Theorem tag_decode_bounds s p :
  0 <= GET_SIZE s p < 2 ^ 32 /\
  GET_SIZE s p mod 8 = 0 /\
  (GET_ALLOC s p = 0 \/ GET_ALLOC s p = 1) /\
  GET_SIZE s p + GET_ALLOC s p <= GET s p.
Proof.
  rewrite GET_SIZE_eq, GET_ALLOC_eq.
  pose proof (GET_range s p) as Hr.
  pose proof (Z.div_mod (GET s p) 8 ltac:(lia)) as Hdm.
  pose proof (Z.mod_pos_bound (GET s p) 8 ltac:(lia)) as Hm8.
  pose proof (Z.mod_pos_bound (GET s p) 2 ltac:(lia)) as Hm2.
  assert (Hm : GET s p mod 2 <= GET s p mod 8).
  { replace (GET s p mod 2) with ((GET s p mod 8) mod 2).
    - apply Z.mod_le; lia.
    - change 8 with (2 * 4). rewrite Z.rem_mul_r by lia.
      rewrite (Z.mul_comm 2), Z.mod_add by lia. apply Z.mod_mod. lia. }
  repeat split; try lia.
  rewrite Z.mul_comm. apply Z.mod_mul. lia.
Qed.

Lemma tag_after_PUT s p size alloc :
  size mod 8 = 0 ->
  alloc = 0 \/ alloc = 1 ->
  GET_SIZE (after (PUT p (PACK size alloc)) s) p = wrap32 size /\
  GET_ALLOC (after (PUT p (PACK size alloc)) s) p = alloc.
Proof.
  intros H8 Ha.
  rewrite GET_SIZE_eq, GET_ALLOC_eq, GET_PUT_same, PACK_add by assumption.
  assert (Hw8 : wrap32 size mod 8 = 0).
  { unfold wrap32. change (2 ^ 32) with (8 * 536870912).
    rewrite Z.rem_mul_r by lia. rewrite H8.
    rewrite Z.add_0_l, Z.mul_comm. apply Z.mod_mul. lia. }
  assert (Hw : wrap32 (size + alloc) = wrap32 size + alloc).
  { unfold wrap32 in *. rewrite <- Zplus_mod_idemp_l.
    apply Z.mod_small.
    pose proof (Z.mod_pos_bound size (2 ^ 32) ltac:(lia)) as Hb.
    pose proof (Z.div_mod (size mod 2 ^ 32) 8 ltac:(lia)) as Hdm.
    rewrite Hw8 in Hdm. lia. }
  rewrite Hw.
  pose proof (Z.div_mod (wrap32 size) 8 ltac:(lia)) as Hdm.
  rewrite Hw8 in Hdm.
  split.
  - rewrite <- (Z.div_unique (wrap32 size + alloc) 8 (wrap32 size / 8) alloc); lia.
  - replace (wrap32 size + alloc) with (alloc + (4 * (wrap32 size / 8)) * 2) by lia.
    rewrite Z.mod_add by lia. apply Z.mod_small. lia.
Qed.

(** A tag written as [PACK(size, alloc)] decodes to the size modulo 2^32
    and to the allocated bit: the header keeps 32 bits of a [size_t]. *)
Theorem tag_keeps_low_32_bits s p size alloc :
  size mod 8 = 0 ->
  alloc = 0 \/ alloc = 1 ->
  GET_SIZE (after (PUT p (PACK size alloc)) s) p = wrap32 size /\
  GET_ALLOC (after (PUT p (PACK size alloc)) s) p = alloc.
Proof. apply tag_after_PUT. Qed.

Lemma tag_keeps_low_32_bits_witness :
  (2 ^ 32 + 24) mod 8 = 0 /\ (1 = 0 \/ 1 = 1) /\
  GET_SIZE (after (PUT 65548 (PACK (2 ^ 32 + 24) 1)) fresh) 65548 = 24 /\
  GET_ALLOC (after (PUT 65548 (PACK (2 ^ 32 + 24) 1)) fresh) 65548 = 1.
Proof.
  assert (H1 : (2 ^ 32 + 24) mod 8 = 0) by reflexivity.
  assert (H2 : 1 = 0 \/ 1 = 1) by (right; reflexivity).
  split; [exact H1|]. split; [exact H2|].
  exact (tag_keeps_low_32_bits fresh 65548 (2 ^ 32 + 24) 1 H1 H2).
Defined.

(** Round trip of a boundary tag: for a size below 2^32 that is a multiple
    of 8, [GET_SIZE] and [GET_ALLOC] recover what [PACK] put together. *)
Theorem tag_roundtrip s p size alloc :
  0 <= size < 2 ^ 32 ->
  size mod 8 = 0 ->
  alloc = 0 \/ alloc = 1 ->
  GET_SIZE (after (PUT p (PACK size alloc)) s) p = size /\
  GET_ALLOC (after (PUT p (PACK size alloc)) s) p = alloc.
Proof.
  intros Hr H8 Ha.
  destruct (tag_after_PUT s p size alloc H8 Ha) as [Hs Hal].
  split; [|exact Hal].
  rewrite Hs. now apply Z.mod_small.
Qed.

Lemma tag_roundtrip_witness :
  (0 <= 4096 < 2 ^ 32) /\ 4096 mod 8 = 0 /\ (0 = 0 \/ 0 = 1) /\
  GET_SIZE (after (PUT 65548 (PACK 4096 0)) fresh) 65548 = 4096 /\
  GET_ALLOC (after (PUT 65548 (PACK 4096 0)) fresh) 65548 = 0.
Proof.
  assert (H0 : 0 <= 4096 < 2 ^ 32) by lia.
  assert (H1 : 4096 mod 8 = 0) by reflexivity.
  assert (H2 : 0 = 0 \/ 0 = 1) by (left; reflexivity).
  split; [exact H0|]. split; [exact H1|]. split; [exact H2|].
  exact (tag_roundtrip fresh 65548 4096 0 H0 H1 H2).
Defined.

(** ** Free-list links and block navigation *)

Lemma mem_after_SET_NEXT_FREE bp val s :
  mem (after (SET_NEXT_FREE bp val) s) = store_le 8 bp val (mem s).
Proof. reflexivity. Qed.

Lemma mem_after_SET_PREV_FREE bp val s :
  mem (after (SET_PREV_FREE bp val) s)
  = store_le 8 (ptr_add bp sizeof_ptr) val (mem s).
Proof. reflexivity. Qed.

Lemma after_bind {A B} (c : M A) (k : A -> M B) s :
  after (bind c k) s = after (k (result c s)) (after c s).
Proof. unfold after, result, bind. now destruct (c s). Qed.

(** The two links of a free block are independent cells: after both are
    set, each reads back the pointer stored in it. *)
Theorem links_roundtrip s bp nx pv :
  0 <= bp -> bp + 2 * sizeof_ptr <= 2 ^ 64 ->
  0 <= nx < 2 ^ 64 -> 0 <= pv < 2 ^ 64 ->
  let s' := after (bind (SET_NEXT_FREE bp nx) (fun _ => SET_PREV_FREE bp pv)) s in
  GET_NEXT_FREE s' bp = nx /\ GET_PREV_FREE s' bp = pv.
Proof.
  intros Hlo Hhi Hnx Hpv s'. subst s'. unfold sizeof_ptr in Hhi.
  rewrite after_bind. unfold GET_NEXT_FREE, GET_PREV_FREE.
  rewrite mem_after_SET_PREV_FREE, mem_after_SET_NEXT_FREE.
  rewrite (ptr_add_exact bp sizeof_ptr) by (unfold sizeof_ptr; lia).
  unfold sizeof_ptr. split.
  - rewrite load_le_store_le_out by lia.
    rewrite (load_le_store_le_prefix 8 8) by lia.
    apply Z.mod_small. exact Hnx.
  - rewrite (load_le_store_le_prefix 8 8) by lia.
    apply Z.mod_small. exact Hpv.
Qed.

Lemma links_roundtrip_witness :
  let s' := after (bind (SET_NEXT_FREE 65552 65576)
                        (fun _ => SET_PREV_FREE 65552 NULL)) fresh in
  GET_NEXT_FREE s' 65552 = 65576 /\ GET_PREV_FREE s' 65552 = NULL.
Proof.
  apply (links_roundtrip fresh 65552 65576 NULL); unfold sizeof_ptr, NULL; lia.
Defined.

(** In a block of at least [MIN_BLOCK_SIZE] bytes, setting the two links
    changes neither the header nor the footer. *)
Theorem links_spare_tags s bp nx pv :
  WSIZE <= bp -> bp + GET_SIZE s (HDRP bp) < 2 ^ 64 ->
  MIN_BLOCK_SIZE <= GET_SIZE s (HDRP bp) ->
  let s' := after (bind (SET_NEXT_FREE bp nx) (fun _ => SET_PREV_FREE bp pv)) s in
  GET s' (HDRP bp) = GET s (HDRP bp) /\
  FTRP s' bp = FTRP s bp /\
  GET s' (FTRP s' bp) = GET s (FTRP s bp).
Proof.
  intros Hlo Hhi Hmin s'. subst s'.
  unfold WSIZE in Hlo. unfold MIN_BLOCK_SIZE, DSIZE, sizeof_ptr in Hmin.
  set (sz := GET_SIZE s (HDRP bp)) in *.
  assert (Hh : HDRP bp = bp - 4).
  { unfold HDRP, WSIZE. apply ptr_add_exact. lia. }
  assert (Hget : forall q, q + 4 <= bp \/ bp + 16 <= q ->
            GET (after (bind (SET_NEXT_FREE bp nx)
                             (fun _ => SET_PREV_FREE bp pv)) s) q = GET s q).
  { intros q Hq. rewrite after_bind. unfold GET.
    rewrite mem_after_SET_PREV_FREE, mem_after_SET_NEXT_FREE.
    rewrite (ptr_add_exact bp sizeof_ptr) by (unfold sizeof_ptr; lia).
    unfold sizeof_ptr. rewrite !load_le_store_le_out by lia. reflexivity. }
  assert (H1 : GET (after (bind (SET_NEXT_FREE bp nx)
                                (fun _ => SET_PREV_FREE bp pv)) s) (HDRP bp)
               = GET s (HDRP bp)).
  { apply Hget. rewrite Hh. lia. }
  assert (H2 : FTRP (after (bind (SET_NEXT_FREE bp nx)
                                 (fun _ => SET_PREV_FREE bp pv)) s) bp = FTRP s bp).
  { unfold FTRP, GET_SIZE. now rewrite H1. }
  split; [exact H1|]. split; [exact H2|].
  rewrite H2. apply Hget.
  unfold FTRP. fold sz. rewrite ptr_add_add.
  rewrite ptr_add_exact by (unfold DSIZE; lia). unfold DSIZE. lia.
Qed.

Lemma links_spare_tags_witness :
  let s' := after (bind (SET_NEXT_FREE 65552 NULL)
                        (fun _ => SET_PREV_FREE 65552 NULL)) used_then_free in
  GET s' (HDRP 65552) = GET used_then_free (HDRP 65552) /\
  FTRP s' 65552 = FTRP used_then_free 65552 /\
  GET s' (FTRP s' 65552) = GET used_then_free (FTRP used_then_free 65552).
Proof.
  apply (links_spare_tags used_then_free 65552 NULL NULL).
  - unfold WSIZE. lia.
  - vm_compute. reflexivity.
  - vm_compute. discriminate.
Defined.

(** In a block of 16 bytes the second link and the footer are the same
    cell: setting the link replaces the footer by the low half of the
    pointer. *)
Theorem prev_link_lies_on_footer_of_16 s bp pv :
  WSIZE <= bp -> bp + 2 * DSIZE < 2 ^ 64 ->
  GET_SIZE s (HDRP bp) = 2 * DSIZE ->
  let s' := after (SET_PREV_FREE bp pv) s in
  FTRP s' bp = ptr_add bp sizeof_ptr /\
  GET s' (FTRP s' bp) = wrap32 pv.
Proof.
  intros Hlo Hhi Hsz s'. subst s'.
  unfold WSIZE in Hlo. unfold DSIZE in Hhi.
  assert (Hh : HDRP bp = bp - 4).
  { unfold HDRP, WSIZE. apply ptr_add_exact. lia. }
  assert (Hp : ptr_add bp sizeof_ptr = bp + 8).
  { unfold sizeof_ptr. apply ptr_add_exact. lia. }
  assert (H1 : GET (after (SET_PREV_FREE bp pv) s) (HDRP bp) = GET s (HDRP bp)).
  { unfold GET. rewrite mem_after_SET_PREV_FREE, Hp, Hh.
    apply load_le_store_le_out. lia. }
  assert (H2 : FTRP (after (SET_PREV_FREE bp pv) s) bp = ptr_add bp sizeof_ptr).
  { unfold FTRP, GET_SIZE. rewrite H1. fold (GET_SIZE s (HDRP bp)).
    rewrite Hsz, ptr_add_add. reflexivity. }
  split; [exact H2|].
  rewrite H2. unfold GET. rewrite mem_after_SET_PREV_FREE.
  rewrite (load_le_store_le_prefix 4 8) by lia. reflexivity.
Qed.

Lemma prev_link_lies_on_footer_of_16_witness :
  let s0 := after (PUT (HDRP 65552) (PACK 16 0)) fresh in
  let s' := after (SET_PREV_FREE 65552 65600) s0 in
  FTRP s' 65552 = ptr_add 65552 sizeof_ptr /\
  GET s' (FTRP s' 65552) = wrap32 65600.
Proof.
  apply (prev_link_lies_on_footer_of_16
           (after (PUT (HDRP 65552) (PACK 16 0)) fresh) 65552 65600).
  - unfold WSIZE. lia.
  - unfold DSIZE. lia.
  - vm_compute. reflexivity.
Defined.

(** Going to the next block and back: when the footer of a block carries
    the size of its header, [PREV_BLKP] undoes [NEXT_BLKP], and the header
    of the next block is the word right after the footer. *)
Theorem next_then_prev s bp :
  0 <= bp < 2 ^ 64 ->
  GET_SIZE s (FTRP s bp) = GET_SIZE s (HDRP bp) ->
  PREV_BLKP s (NEXT_BLKP s bp) = bp /\
  HDRP (NEXT_BLKP s bp) = ptr_add (FTRP s bp) WSIZE.
Proof.
  intros Hbp Htag. split.
  - unfold PREV_BLKP, NEXT_BLKP.
    change (ptr_add (ptr_add bp (GET_SIZE s (HDRP bp))) (- DSIZE)) with (FTRP s bp).
    rewrite Htag, ptr_add_add.
    replace (GET_SIZE s (HDRP bp) + - GET_SIZE s (HDRP bp)) with 0 by lia.
    now apply ptr_add_0.
  - unfold HDRP at 1. unfold NEXT_BLKP, FTRP.
    rewrite !ptr_add_add. f_equal; unfold WSIZE, DSIZE; lia.
Qed.

Lemma next_then_prev_witness :
  PREV_BLKP used_then_free (NEXT_BLKP used_then_free 65552) = 65552 /\
  HDRP (NEXT_BLKP used_then_free 65552)
    = ptr_add (FTRP used_then_free 65552) WSIZE.
Proof.
  apply (next_then_prev used_then_free 65552).
  - lia.
  - vm_compute. reflexivity.
Defined.

(** Going to the previous block and forth: when the header of the
    previous block carries the size of the footer in front of [bp],
    [NEXT_BLKP] undoes [PREV_BLKP]. *)
Theorem prev_then_next s bp :
  0 <= bp < 2 ^ 64 ->
  GET_SIZE s (HDRP (PREV_BLKP s bp)) = GET_SIZE s (ptr_add bp (- DSIZE)) ->
  NEXT_BLKP s (PREV_BLKP s bp) = bp.
Proof.
  intros Hbp Htag. unfold NEXT_BLKP. rewrite Htag.
  unfold PREV_BLKP. rewrite ptr_add_add.
  replace (- GET_SIZE s (ptr_add bp (- DSIZE)) + GET_SIZE s (ptr_add bp (- DSIZE)))
    with 0 by lia.
  now apply ptr_add_0.
Qed.

Lemma prev_then_next_witness :
  NEXT_BLKP used_then_free (PREV_BLKP used_then_free 65576) = 65576.
Proof.
  apply (prev_then_next used_then_free 65576).
  - lia.
  - vm_compute. reflexivity.
Defined.

(** ** The arena provider over sequences of calls *)

(** [mem_init] with a non-null region: the heap is empty, its first byte is
    the region's first byte, and [mem_heap_hi] is the byte before it.  The
    allocator's two statics are not touched. *)
Theorem mem_init_gives_empty_heap base s :
  0 < base -> base + MAX_HEAP + INT_MAX < 2 ^ 64 ->
  exists s', mem_init base s = Some s' /\
    arena_ok s' /\
    mem_heapsize s' = 0 /\
    mem_heap_lo s' = base /\
    mem_heap_hi s' = base - 1 /\
    heap_listp s' = heap_listp s /\ free_listp s' = free_listp s.
Proof.
  intros Hpos Htop.
  destruct (mem_init base s) as [s'|] eqn:Hinit.
  - exists s'. split; [reflexivity|].
    split; [exact (mem_init_ok base s s' Hpos Htop Hinit)|].
    unfold mem_init, NULL in Hinit.
    destruct (Z.eqb_spec base 0) as [?|_]; [lia|].
    injection Hinit as <-.
    unfold mem_heapsize, mem_heap_lo, mem_heap_hi; simpl.
    rewrite Z.sub_diag.
    rewrite ptr_add_exact by (unfold MAX_HEAP, INT_MAX in Htop; lia).
    repeat split; lia.
  - unfold mem_init, NULL in Hinit.
    destruct (Z.eqb_spec base 0) as [?|_]; [lia|discriminate].
Qed.

Lemma mem_init_gives_empty_heap_witness :
  exists s', mem_init 65536 boot = Some s' /\
    arena_ok s' /\
    mem_heapsize s' = 0 /\
    mem_heap_lo s' = 65536 /\
    mem_heap_hi s' = 65536 - 1 /\
    heap_listp s' = heap_listp boot /\
    free_listp s' = free_listp boot.
Proof.
  apply (mem_init_gives_empty_heap 65536 boot);
    unfold MAX_HEAP, INT_MAX; lia.
Defined.

(** One call touches nothing but the break. *)
Lemma mem_sbrk_frame incr s :
  mem_heap (after (mem_sbrk incr) s) = mem_heap s /\
  mem_max_addr (after (mem_sbrk incr) s) = mem_max_addr s /\
  mem (after (mem_sbrk incr) s) = mem s /\
  heap_listp (after (mem_sbrk incr) s) = heap_listp s /\
  free_listp (after (mem_sbrk incr) s) = free_listp s.
Proof.
  unfold after, mem_sbrk.
  destruct ((incr <? 0) || (ptr_add (mem_brk s) incr >? mem_max_addr s));
    repeat split.
Qed.

Lemma mem_sbrk_brk_mono incr s :
  arena_ok s -> in_int incr -> mem_brk s <= mem_brk (after (mem_sbrk incr) s).
Proof.
  intros Hok Hincr.
  destruct (Z_lt_dec incr 0) as [Hneg|Hnn].
  - unfold after. rewrite mem_sbrk_failure by auto. simpl. lia.
  - destruct (Z_le_dec (mem_heapsize s + incr) MAX_HEAP) as [Hcap|Hcap].
    + unfold after. rewrite mem_sbrk_success by (unfold within_cap; auto; lia).
      simpl. lia.
    + unfold after. rewrite mem_sbrk_failure by (unfold within_cap; auto).
      simpl. lia.
Qed.

Lemma sbrk_calls_inv l s :
  arena_ok s -> Forall in_int l ->
  arena_ok (sbrk_calls l s) /\
  mem_heap (sbrk_calls l s) = mem_heap s /\
  mem_max_addr (sbrk_calls l s) = mem_max_addr s /\
  mem (sbrk_calls l s) = mem s /\
  mem_brk s <= mem_brk (sbrk_calls l s) /\
  mem_heapsize (sbrk_calls l s) <= MAX_HEAP.
Proof.
  intros Hok Hall. revert s Hok.
  induction Hall as [|incr l Hincr Hall IH]; intros s Hok; simpl.
  - split; [exact Hok|].
    do 3 (split; [reflexivity|]). split; [lia|].
    rewrite heapsize_exact by exact Hok.
    destruct Hok as (_ & ? & ? & _). lia.
  - pose proof (mem_sbrk_keeps_ok s incr Hok Hincr) as Hok'.
    pose proof (mem_sbrk_frame incr s) as (Hf1 & Hf2 & Hf3 & _).
    pose proof (mem_sbrk_brk_mono incr s Hok Hincr) as Hmono.
    destruct (IH _ Hok') as (I1 & I2 & I3 & I4 & I5 & I6).
    split; [exact I1|].
    do 3 (split; [congruence|]). split; [lia|exact I6].
Qed.

(** Whatever [int] increments a client passes, in whatever order:
    the arena stays well formed, its bounds and bytes stay as they were,
    the break never moves down, and the heap never exceeds [MAX_HEAP]. *)
Theorem sbrk_calls_keep_arena l s :
  arena_ok s -> Forall in_int l ->
  arena_ok (sbrk_calls l s) /\
  mem_heap (sbrk_calls l s) = mem_heap s /\
  mem_max_addr (sbrk_calls l s) = mem_max_addr s /\
  mem (sbrk_calls l s) = mem s /\
  mem_brk s <= mem_brk (sbrk_calls l s) /\
  mem_heapsize (sbrk_calls l s) <= MAX_HEAP.
Proof. apply sbrk_calls_inv. Qed.

Lemma in_int_list : Forall in_int [16; -8; 4096; MAX_HEAP; 0].
Proof.
  repeat constructor; unfold INT_MIN, INT_MAX, MAX_HEAP; lia.
Defined.

Lemma sbrk_calls_keep_arena_witness :
  arena_ok (sbrk_calls [16; -8; 4096; MAX_HEAP; 0] fresh) /\
  mem_heap (sbrk_calls [16; -8; 4096; MAX_HEAP; 0] fresh) = mem_heap fresh /\
  mem_max_addr (sbrk_calls [16; -8; 4096; MAX_HEAP; 0] fresh) = mem_max_addr fresh /\
  mem (sbrk_calls [16; -8; 4096; MAX_HEAP; 0] fresh) = mem fresh /\
  mem_brk fresh <= mem_brk (sbrk_calls [16; -8; 4096; MAX_HEAP; 0] fresh) /\
  mem_heapsize (sbrk_calls [16; -8; 4096; MAX_HEAP; 0] fresh) <= MAX_HEAP.
Proof.
  exact (sbrk_calls_keep_arena _ fresh fresh_ok in_int_list).
Defined.

(** A successful call hands out the [incr] bytes that follow the old last
    byte of the heap: the region starts right after [mem_heap_hi], ends at
    the new [mem_heap_hi], lies inside the arena, and the heap size grows
    by [incr]. *)
Theorem mem_sbrk_hands_out_fresh_bytes s incr :
  arena_ok s -> in_int incr -> 0 <= incr -> within_cap s incr ->
  let r := result (mem_sbrk incr) s in
  let s' := after (mem_sbrk incr) s in
  r = mem_heap_hi s + 1 /\
  r + incr = mem_heap_hi s' + 1 /\
  mem_heap_lo s' <= r /\ r + incr <= mem_max_addr s' /\
  mem_heapsize s' = mem_heapsize s + incr.
Proof.
  intros Hok Hincr Hnn Hcap r s'. subst r s'.
  pose proof (mem_sbrk_keeps_ok s incr Hok Hincr) as Hok'.
  rewrite (heapsize_exact _ Hok').
  rewrite (heapsize_exact _ Hok).
  pose proof (proj1 (within_cap_brk s incr Hok) Hcap) as Hbrk.
  unfold result, after in *. rewrite mem_sbrk_success in * by assumption.
  unfold mem_heap_hi, mem_heap_lo. simpl.
  destruct Hok as (Hpos & Hb & Hmax & Htop).
  unfold INT_MAX in Htop.
  rewrite !ptr_add_exact by lia.
  repeat split; lia.
Qed.

Lemma mem_sbrk_hands_out_fresh_bytes_witness :
  let r := result (mem_sbrk 16) fresh in
  let s' := after (mem_sbrk 16) fresh in
  r = mem_heap_hi fresh + 1 /\
  r + 16 = mem_heap_hi s' + 1 /\
  mem_heap_lo s' <= r /\ r + 16 <= mem_max_addr s' /\
  mem_heapsize s' = mem_heapsize fresh + 16.
Proof.
  apply (mem_sbrk_hands_out_fresh_bytes fresh 16 fresh_ok in_int_16).
  - lia.
  - unfold within_cap. vm_compute. discriminate.
Defined.

(** Two calls in a row hand out adjacent regions, and leave the state that
    one call for the sum leaves. *)
Theorem mem_sbrk_adjacent s a b :
  arena_ok s -> 0 <= a -> 0 <= b -> within_cap s (a + b) ->
  result (mem_sbrk b) (after (mem_sbrk a) s) = result (mem_sbrk a) s + a /\
  after (mem_sbrk b) (after (mem_sbrk a) s) = after (mem_sbrk (a + b)) s.
Proof.
  intros Hok Ha Hb Hcap.
  assert (Hsz : 0 <= mem_heapsize s).
  { rewrite heapsize_exact by exact Hok. destruct Hok as (_ & ? & _). lia. }
  unfold within_cap in Hcap.
  assert (Hia : in_int a) by (unfold in_int, INT_MIN, INT_MAX, MAX_HEAP in *; lia).
  assert (Hib : in_int b) by (unfold in_int, INT_MIN, INT_MAX, MAX_HEAP in *; lia).
  assert (Hiab : in_int (a + b))
    by (unfold in_int, INT_MIN, INT_MAX, MAX_HEAP in *; lia).
  pose proof (mem_sbrk_keeps_ok s a Hok Hia) as Hok'.
  assert (Hca : within_cap s a) by (unfold within_cap; lia).
  assert (Hcb : within_cap (after (mem_sbrk a) s) b).
  { unfold within_cap. rewrite (heapsize_exact _ Hok').
    rewrite heapsize_exact in Hcap by exact Hok.
    unfold after. rewrite mem_sbrk_success by assumption.
    cbn [snd set_mem_brk mem_brk mem_heap]. lia. }
  pose proof (mem_sbrk_success s a Hok Hia Ha Hca) as Ea.
  pose proof (mem_sbrk_success _ b Hok' Hib Hb Hcb) as Eb.
  assert (Eab : mem_sbrk (a + b) s
                = (mem_brk s, set_mem_brk (mem_brk s + (a + b)) s))
    by (apply mem_sbrk_success; unfold within_cap; auto; lia).
  assert (Es1 : after (mem_sbrk a) s = set_mem_brk (mem_brk s + a) s)
    by (unfold after; now rewrite Ea).
  rewrite Es1 in Eb.
  rewrite Es1. unfold result, after. rewrite Eb, Ea, Eab.
  unfold set_mem_brk.
  cbn [fst snd mem_heap mem_brk mem_max_addr mem heap_listp free_listp].
  split; [reflexivity|]. f_equal; lia.
Qed.

Lemma mem_sbrk_adjacent_witness :
  result (mem_sbrk 4096) (after (mem_sbrk 16) fresh)
    = result (mem_sbrk 16) fresh + 16 /\
  after (mem_sbrk 4096) (after (mem_sbrk 16) fresh)
    = after (mem_sbrk (16 + 4096)) fresh.
Proof.
  apply (mem_sbrk_adjacent fresh 16 4096 fresh_ok); try lia.
  unfold within_cap. vm_compute. discriminate.
Defined.

(** A request for 0 bytes reads the break and changes nothing. *)
Theorem mem_sbrk_zero_reads_break s :
  arena_ok s -> mem_sbrk 0 s = (mem_brk s, s).
Proof.
  intros Hok.
  assert (Hi : in_int 0) by (unfold in_int, INT_MIN, INT_MAX; lia).
  rewrite (mem_sbrk_success s 0 Hok Hi).
  - rewrite Z.add_0_r. destruct s; reflexivity.
  - lia.
  - apply within_cap_brk; [exact Hok|]. destruct Hok as (_ & ? & _). lia.
Qed.

Lemma mem_sbrk_zero_reads_break_witness :
  mem_sbrk 0 fresh = (mem_brk fresh, fresh).
Proof. exact (mem_sbrk_zero_reads_break fresh fresh_ok). Defined.

(** The arena is never given back: once a request has failed for lack of
    room, every request at least as large fails, whatever calls came in
    between, and fails without moving the break. *)
Theorem mem_sbrk_failure_is_final s incr l incr' :
  arena_ok s -> in_int incr -> 0 <= incr -> ~ within_cap s incr ->
  Forall in_int l -> in_int incr' -> incr <= incr' ->
  mem_sbrk incr' (sbrk_calls l s) = (MINUS_ONE_PTR, sbrk_calls l s).
Proof.
  intros Hok Hincr Hnn Hcap Hall Hincr' Hle.
  destruct (sbrk_calls_inv l s Hok Hall) as (Hok' & Hh & Hm & _ & Hb & _).
  apply mem_sbrk_failure; [exact Hok'|exact Hincr'|].
  right. rewrite within_cap_brk by exact Hok'.
  rewrite within_cap_brk in Hcap by exact Hok.
  rewrite Hm. lia.
Qed.

Lemma in_int_call_list : Forall in_int [16; -1; 4096].
Proof. repeat constructor; unfold INT_MIN, INT_MAX; lia. Defined.

Lemma in_int_max_heap : in_int MAX_HEAP.
Proof. unfold in_int, INT_MIN, INT_MAX, MAX_HEAP. lia. Defined.

Lemma mem_sbrk_failure_is_final_witness :
  mem_sbrk MAX_HEAP (sbrk_calls [16; -1; 4096] (after (mem_sbrk 16) fresh))
  = (MINUS_ONE_PTR, sbrk_calls [16; -1; 4096] (after (mem_sbrk 16) fresh)).
Proof.
  apply (mem_sbrk_failure_is_final (after (mem_sbrk 16) fresh) MAX_HEAP
           [16; -1; 4096] MAX_HEAP).
  - exact (mem_sbrk_keeps_ok fresh 16 fresh_ok in_int_16).
  - exact in_int_max_heap.
  - unfold MAX_HEAP. lia.
  - unfold within_cap. vm_compute. intros H. apply H. reflexivity.
  - exact in_int_call_list.
  - exact in_int_max_heap.
  - lia.
Defined.

(** ** [mm_realloc] *)

Lemma mm_realloc_unfold ptr size s :
  mm_realloc ptr size s = (NULL, s).
Proof.
  destruct (Z.eq_dec ptr NULL) as [->|Hp]; [reflexivity|].
  destruct (Z.eq_dec size 0) as [->|Hn].
  - now rewrite mm_realloc_zero.
  - now apply mm_realloc_nonnull.
Qed.

(** In every state and for every block and size, [mm_realloc] returns null
    and leaves the state as it was: no block is handed out, moved or
    freed. *)
Theorem mm_realloc_always_null ptr size s :
  mm_realloc ptr size s = (NULL, s).
Proof. apply mm_realloc_unfold. Qed.

(** When the old header reports at least the tag overhead, the tail of
    [mm_realloc] copies no more than [size] bytes and no more than the old
    payload holds. *)
Theorem realloc_copy_stays_in_payload ptr size newptr s :
  DSIZE <= GET_SIZE s (HDRP ptr) ->
  exists c,
    realloc_copy ptr size newptr s = (newptr, after (memcpy newptr ptr c) s) /\
    c <= size /\ c <= GET_SIZE s (HDRP ptr) - DSIZE.
Proof.
  intros Hh.
  pose proof (GET_SIZE_range s (HDRP ptr)) as Hr.
  unfold DSIZE in *.
  exists (if size <? wrap64 (GET_SIZE s (HDRP ptr) - 8)
          then size else wrap64 (GET_SIZE s (HDRP ptr) - 8)).
  split; [reflexivity|].
  rewrite wrap64_small by lia.
  destruct (Z.ltb_spec size (GET_SIZE s (HDRP ptr) - 8)); lia.
Qed.

Lemma realloc_copy_stays_in_payload_witness :
  exists c,
    realloc_copy 65552 100 65576 used_then_free
      = (65576, after (memcpy 65576 65552 c) used_then_free) /\
    c <= 100 /\ c <= GET_SIZE used_then_free (HDRP 65552) - DSIZE.
Proof.
  apply (realloc_copy_stays_in_payload 65552 100 65576 used_then_free).
  vm_compute. discriminate.
Defined.

(** When the old header reports size 0, [GET_SIZE(HDRP(ptr)) - DSIZE]
    wraps around as a [size_t], and the tail of [mm_realloc] copies all
    [size] bytes. *)
Theorem realloc_copy_of_empty_block ptr size newptr s :
  GET_SIZE s (HDRP ptr) = 0 -> 0 <= size < 2 ^ 64 - DSIZE ->
  realloc_copy ptr size newptr s
  = (newptr, after (memcpy newptr ptr size) s).
Proof.
  intros Hz Hsize. unfold realloc_copy, bind, gets. rewrite Hz.
  unfold DSIZE in *. change (wrap64 (0 - 8)) with (2 ^ 64 - 8).
  destruct (Z.ltb_spec size (2 ^ 64 - 8)) as [_|?]; [reflexivity|lia].
Qed.

Lemma realloc_copy_of_empty_block_witness :
  realloc_copy 65536 32 65600 fresh
  = (65600, after (memcpy 65600 65536 32) fresh).
Proof.
  apply (realloc_copy_of_empty_block 65536 32 65600 fresh).
  - vm_compute. reflexivity.
  - unfold DSIZE. lia.
Defined.

(** The tail of [mm_realloc] on its own terms: entered with a block
    [newptr] that does not overlap the old payload, it returns [newptr]
    holding the first [min(size, GET_SIZE(HDRP(ptr)) - DSIZE)] bytes of the
    old payload. *)
Theorem realloc_copy_carries_payload ptr size newptr s :
  let c := Z.min size (wrap64 (GET_SIZE s (HDRP ptr) - DSIZE)) in
  0 <= newptr -> newptr + c <= 2 ^ 64 ->
  newptr + c <= ptr \/ ptr + c <= newptr ->
  result (realloc_copy ptr size newptr) s = newptr /\
  bytes_at (after (realloc_copy ptr size newptr) s) newptr c = bytes_at s ptr c.
Proof.
  intros c Hlo Hhi Hdisj.
  destruct (realloc_copy_preserves ptr size newptr s Hlo Hhi Hdisj) as [Hrun Hbytes].
  split; [|exact Hbytes].
  unfold result. now rewrite Hrun.
Qed.

Lemma realloc_copy_carries_payload_witness :
  result (realloc_copy 65552 8 65576) used_then_free = 65576 /\
  bytes_at (after (realloc_copy 65552 8 65576) used_then_free) 65576
           (Z.min 8 (wrap64 (GET_SIZE used_then_free (HDRP 65552) - DSIZE)))
  = bytes_at used_then_free 65552
           (Z.min 8 (wrap64 (GET_SIZE used_then_free (HDRP 65552) - DSIZE))).
Proof.
  apply (realloc_copy_carries_payload 65552 8 65576 used_then_free).
  - lia.
  - vm_compute. discriminate.
  - right. vm_compute. discriminate.
Defined.

(** ** The public entry points in sequence *)

(** Whatever sequence of public calls a client makes, each call gets the
    same answer (-1 from [mm_init], null from [mm_malloc] and
    [mm_realloc], 0 from [mm_check]) and the state at the end is the state
    at the start: the allocator never takes a byte from the arena. *)
Theorem run_calls_answers l s :
  run_calls l s = (map answer l, s).
Proof.
  induction l as [|c l IH]; [reflexivity|].
  cbn [run_calls map]. unfold bind at 1.
  assert (Hc : run_call c s = (answer c, s)).
  { destruct c; try reflexivity.
    cbn [run_call answer]. unfold bind. now rewrite mm_realloc_unfold. }
  rewrite Hc. unfold bind. rewrite IH. reflexivity.
Qed.

(** ** The checkpoint test driver *)

Lemma reset_allocator_fails base s :
  reset_allocator base s = None \/
  exists s', reset_allocator base s = Some (false, s').
Proof.
  unfold reset_allocator.
  destruct (mem_init base (mem_deinit s)) as [s1|]; [right|now left].
  exists s1. reflexivity.
Qed.

Lemma suite_loop_passes_nothing base_of tests :
  forall i passed s,
    suite_loop base_of i tests passed s = None \/
    suite_loop base_of i tests passed s = Some passed.
Proof.
  induction tests as [|t tests IH]; intros i passed s; [now right|].
  cbn [suite_loop].
  destruct (reset_allocator_fails (base_of i) s) as [->|[s' ->]]; [now left|].
  cbn [negb]. apply IH.
Qed.

(** Run for one test whose number [n] is an [int], the driver exits with 2
    when the number is out of range and with 1 otherwise, whichever test
    was chosen: [mm_init] reports failure before the test body is
    reached. *)
Theorem main_single_exit_code g_tests n base s :
  in_int n ->
  main_single g_tests n base s
  = if (n <? 1) || (n >? Z.of_nat (length g_tests)) then 2 else 1.
Proof.
  intros _. unfold main_single.
  destruct ((n <? 1) || (n >? Z.of_nat (length g_tests))); [reflexivity|].
  destruct (mem_init base s); reflexivity.
Qed.

Lemma in_int_1 : in_int 1.
Proof. unfold in_int, INT_MIN, INT_MAX. lia. Defined.

Lemma main_single_exit_code_witness :
  in_int 1 /\ main_single [test_zero_size] 1 65536 boot = 1.
Proof.
  split; [exact in_int_1|].
  exact (main_single_exit_code [test_zero_size] 1 65536 boot in_int_1).
Defined.

(** Run for the whole suite, the driver exits with 1 as soon as one test is
    registered: every test is skipped because [reset_allocator] fails. *)
Theorem main_suite_exit_code base_of g_tests s :
  main_suite base_of g_tests s
  = if Nat.eqb (length g_tests) 0 then 0 else 1.
Proof.
  unfold main_suite.
  destruct g_tests as [|t g]; [reflexivity|].
  destruct (suite_loop_passes_nothing base_of (t :: g) 0%nat 0 s) as [->| ->];
    [reflexivity|].
  cbn [length Nat.eqb].
  destruct (Z.eqb_spec 0 (Z.of_nat (S (length g)))) as [H|_]; [lia|reflexivity].
Qed.

(** ** [mm_realloc] on a block that is in use *)


